(** * SearchEngine: the paginated fetcher and the in-memory search engine

    A shallow embedding of [src/data_loader.py] (fetch_messages_once) and
    [src/search_engine.py] (tokenize, SearchEngine.build_index, _score,
    search), with the properties of the specification stated over it.

    Conventions of the embedding.
    - A Python [str] is a [string] of bytes (UTF-8). [lower], [strip] and the
      regular expressions act on the ASCII range, every other byte is left
      as it is; byte-wise lexicographic order is code point order.
    - JSON numbers are integers ([Z]); floating point values are outside the
      model.
    - A Python [dict] is the list of its items in insertion order
      ([list (string * V)]), its keys pairwise distinct; [dict_set] keeps a
      key that is already there at its place, as a Python dict does, and
      [dict_get] reads the first binding of a key.
    - A Python [set] of strings is a [gset string], the inverted index a
      [gmap string (gset string)].
    - An exception ends a call with [Raise e].  [time.sleep] and logging
      have no effect on the values computed and are left out. *)

From Stdlib Require Import ZArith Ascii String List Lia Decimal DecimalString.
From stdpp Require Import gmap strings list sorting.

Local Open Scope Z_scope.

(* stdpp's solvers clear hypotheses that an earlier branch has used up. *)
#[local] Set Warnings "-clear-no-such-hyp".

(** ** Exceptions and results *)

Inductive pyexc : Type :=
| UnboundLocalError
| ValueError
| TypeError
| KeyError.

Inductive result (A : Type) : Type :=
| Ok (a : A)
| Raise (e : pyexc).
Arguments Ok {A} a.
Arguments Raise {A} e.

(** Sequencing: an exception ends the computation ([x ← r; k]). *)
#[global] Instance result_bind : MBind result := λ A B k r,
  match r with
  | Ok a => k a
  | Raise e => Raise e
  end.

(** ** Strings *)

Definition chr (n : nat) : ascii := ascii_of_nat n.
Definition ord (c : ascii) : nat := nat_of_ascii c.

Definition in_range (lo hi : nat) (c : ascii) : bool :=
  (lo <=? ord c)%nat && (ord c <=? hi)%nat.

(** [str.isspace] on the ASCII range: TAB..CR, FS..US and the space. *)
Definition is_space (c : ascii) : bool := in_range 9 13 c || in_range 28 32 c.
Definition is_digit (c : ascii) : bool := in_range 48 57 c.
Definition is_upper (c : ascii) : bool := in_range 65 90 c.
(** The character class [a-z0-9] of the tokenizer. *)
Definition is_token_char (c : ascii) : bool := in_range 97 122 c || is_digit c.
(** The character class [0-9a-fA-F]. *)
Definition is_hex (c : ascii) : bool :=
  is_digit c || in_range 97 102 c || in_range 65 70 c.

Definition lower_char (c : ascii) : ascii :=
  if is_upper c then chr (ord c + 32) else c.

Fixpoint lower (s : string) : string :=
  match s with
  | EmptyString => EmptyString
  | String c s' => String (lower_char c) (lower s')
  end.

Fixpoint lstrip (s : string) : string :=
  match s with
  | EmptyString => EmptyString
  | String c s' => if is_space c then lstrip s' else s
  end.

Fixpoint rstrip (s : string) : string :=
  match s with
  | EmptyString => EmptyString
  | String c s' =>
      match rstrip s' with
      | EmptyString => if is_space c then EmptyString else String c EmptyString
      | r => String c r
      end
  end.

(** [s.strip()] *)
Definition strip (s : string) : string := lstrip (rstrip s).

(** [sub in s] on strings *)
Fixpoint str_contains (sub s : string) : bool :=
  String.prefix sub s ||
  match s with
  | EmptyString => false
  | String _ s' => str_contains sub s'
  end.

(** [sep.join(parts)] *)
Definition join (sep : string) (parts : list string) : string :=
  String.concat sep parts.

Definition str_nonempty (s : string) : bool :=
  match s with EmptyString => false | _ => true end.

(** [re.split(r"[^a-z0-9]+", s)]: the pieces between the maximal runs of
    separators, the empty pieces before a leading run and after a trailing
    one included. *)
Fixpoint re_split (s : string) : list string :=
  match s with
  | EmptyString => [EmptyString]
  | String c s' =>
      if is_token_char c then
        match re_split s' with
        | piece :: pieces => String c piece :: pieces
        | [] => [String c EmptyString]
        end
      else
        match s' with
        | EmptyString => EmptyString :: re_split s'
        | String c' _ =>
            if is_token_char c' then EmptyString :: re_split s'
            else re_split s'
        end
  end.

Definition tokenize (text : string) : list string :=
  if str_nonempty text then filter (λ t, str_nonempty t = true) (re_split (lower text))
  else [].

(** The regular expression of [search]:
    8-4-4-4-12 hexadecimal digits with dashes.  [true] stands for a
    hexadecimal digit, [false] for the dash. *)
Definition uuid_pattern : list bool :=
  repeat true 8 ++ [false] ++ repeat true 4 ++ [false] ++ repeat true 4 ++
  [false] ++ repeat true 4 ++ [false] ++ repeat true 12.

Fixpoint match_pattern (p : list bool) (s : string) : bool :=
  match p, s with
  | [], EmptyString => true
  | b :: p', String c s' =>
      (if b then is_hex c else Ascii.eqb c "-") && match_pattern p' s'
  | _, _ => false
  end.

Definition uuid_shape (s : string) : bool := match_pattern uuid_pattern s.

Fixpoint drop_final_newline (s : string) : option string :=
  match s with
  | EmptyString => None
  | String c EmptyString => if Ascii.eqb c (chr 10) then Some EmptyString else None
  | String c s' => option_map (String c) (drop_final_newline s')
  end.

(** [uuid_re.match(s)] as a truth value.  In Python [$] also matches just
    before a newline that ends the string. *)
Definition uuid_re_match (s : string) : bool :=
  uuid_shape s ||
  match drop_final_newline s with
  | Some s' => uuid_shape s'
  | None => false
  end.

(** ** Python values *)

#[warning="-register-all"]
Inductive json : Type :=
| JNull
| JBool (b : bool)
| JInt (n : Z)
| JStr (s : string)
| JList (l : list json)
| JDict (d : list (string * json)).

Abbreviation document := (list (string * json)).

Section dict.
Context {V : Type}.

(** [d.get(k)], [None] when the key is missing *)
Fixpoint dict_get (k : string) (d : list (string * V)) : option V :=
  match d with
  | [] => None
  | (k', v) :: d' => if String.eqb k k' then Some v else dict_get k d'
  end.

(** [k in d] *)
Definition dict_mem (k : string) (d : list (string * V)) : bool :=
  match dict_get k d with Some _ => true | None => false end.

(** [d[k] = v] *)
Fixpoint dict_set (k : string) (v : V) (d : list (string * V)) : list (string * V) :=
  match d with
  | [] => [(k, v)]
  | (k', v') :: d' =>
      if String.eqb k k' then (k, v) :: d' else (k', v') :: dict_set k v d'
  end.

Definition dict_keys (d : list (string * V)) : list string := fst <$> d.
Definition dict_values (d : list (string * V)) : list V := snd <$> d.

(** [d[k]] *)
Definition dict_getitem (k : string) (d : list (string * V)) : result V :=
  match dict_get k d with
  | Some v => Ok v
  | None => Raise KeyError
  end.
End dict.

(** [d.get(k)] on a JSON object: Python's [None] is [JNull]. *)
Definition json_get (k : string) (d : document) : json :=
  default JNull (dict_get k d).

Definition is_list (v : json) : bool := match v with JList _ => true | _ => false end.
Definition is_dict (v : json) : bool := match v with JDict _ => true | _ => false end.

(** Truth value of an object *)
Definition truthy (v : json) : bool :=
  match v with
  | JNull => false
  | JBool b => b
  | JInt n => negb (n =? 0)
  | JStr s => str_nonempty s
  | JList l => match l with [] => false | _ => true end
  | JDict d => match d with [] => false | _ => true end
  end.

(** [str(n)] for an integer *)
Definition str_of_Z (n : Z) : string := NilEmpty.string_of_int (Z.to_int n).

Definition hex_digit (n : nat) : ascii :=
  if (n <? 10)%nat then chr (48 + n) else chr (87 + n).

Definition squote : ascii := chr 39.
Definition dquote : ascii := chr 34.
Definition backslash : ascii := chr 92.

Fixpoint has_char (c : ascii) (s : string) : bool :=
  match s with
  | EmptyString => false
  | String c' s' => Ascii.eqb c c' || has_char c s'
  end.

Definition repr_char (quote c : ascii) : string :=
  if Ascii.eqb c quote || Ascii.eqb c backslash then String backslash (String c EmptyString)
  else if Ascii.eqb c (chr 9) then String backslash "t"
  else if Ascii.eqb c (chr 10) then String backslash "n"
  else if Ascii.eqb c (chr 13) then String backslash "r"
  else if (ord c <? 32)%nat || (ord c =? 127)%nat then
    String backslash
      (String "x"
         (String (hex_digit (ord c / 16))
            (String (hex_digit (ord c mod 16)) EmptyString)))
  else String c EmptyString.

Fixpoint repr_chars (quote : ascii) (s : string) : string :=
  match s with
  | EmptyString => EmptyString
  | String c s' => repr_char quote c +:+ repr_chars quote s'
  end.

(** [repr(s)] for a string: single quotes, unless the string has a single
    quote and no double quote. *)
Definition repr_str (s : string) : string :=
  let quote := if has_char squote s && negb (has_char dquote s) then dquote else squote in
  String quote (repr_chars quote s +:+ String quote EmptyString).

Fixpoint repr (v : json) : string :=
  match v with
  | JNull => "None"
  | JBool true => "True"
  | JBool false => "False"
  | JInt n => str_of_Z n
  | JStr s => repr_str s
  | JList l => "[" +:+ join ", " (map repr l) +:+ "]"
  | JDict d =>
      "{" +:+ join ", " (map (λ kv, repr_str (fst kv) +:+ ": " +:+ repr (snd kv)) d) +:+ "}"
  end.

(** [str(v)] *)
Definition py_str (v : json) : string :=
  match v with
  | JStr s => s
  | _ => repr v
  end.

Definition digit_value (c : ascii) : Z := Z.of_nat (ord c - 48).

(** The digits of an integer literal: groups of digits separated by single
    underscores. *)
Fixpoint parse_digits (s : string) (acc : Z) (after_digit : bool) : option Z :=
  match s with
  | EmptyString => if after_digit then Some acc else None
  | String c s' =>
      if is_digit c then parse_digits s' (10 * acc + digit_value c) true
      else if Ascii.eqb c "_" && after_digit then
        match s' with
        | EmptyString => None
        | _ => parse_digits s' acc false
        end
      else None
  end.

(** [int(s)] for a string *)
Definition int_of_str (s : string) : option Z :=
  match strip s with
  | String c s' =>
      if Ascii.eqb c "-" then option_map Z.opp (parse_digits s' 0 false)
      else if Ascii.eqb c "+" then parse_digits s' 0 false
      else parse_digits (String c s') 0 false
  | EmptyString => None
  end.

(** [int(v)] *)
Definition py_int (v : json) : result Z :=
  match v with
  | JInt n => Ok n
  | JBool b => Ok (if b then 1 else 0)
  | JStr s => match int_of_str s with Some n => Ok n | None => Raise ValueError end
  | JNull | JList _ | JDict _ => Raise TypeError
  end.

(** [l[start:stop]] with Python's treatment of negative and out-of-range
    bounds. *)
Definition clamp_index (len i : Z) : Z :=
  if i <? 0 then Z.max (len + i) 0 else Z.min i len.

Definition py_slice {A} (l : list A) (start stop : Z) : list A :=
  let len := Z.of_nat (length l) in
  let lo := clamp_index len start in
  let hi := clamp_index len stop in
  take (Z.to_nat (hi - lo)) (drop (Z.to_nat lo) l).

(** ** The fetcher ([data_loader.fetch_messages_once]) *)

(** What one [requests.get] gives: a response with its status code and its
    body ([None] when the body is not JSON), or a [RequestException] raised
    by the transport (connection error, timeout). *)
Inductive response : Type :=
| Resp (status : Z) (body : option json)
| NetError.

(** The upstream, as a mock would be written: the answer to the [n]-th
    request of a call, given its [skip] and [limit] parameters. *)
Definition upstream : Type := nat → Z → Z → response.

(** The exceptions the retry loop catches. *)
Inductive request_exc : Type :=
| HTTPError (status : Z)
| RequestException.

(** [resp.raise_for_status()] raises for the 4xx and 5xx codes. *)
Definition is_http_error (status : Z) : bool := (400 <=? status) && (status <? 600).
Definition is_auth_status (status : Z) : bool := (status =? 401) || (status =? 403).

Definition max_retries : nat := 3.
Definition default_chunk : Z := 100.

(** The local variables that live across the pages.  [data] is [None] as
    long as no statement has bound it; [JNull] is Python's [None]. *)
Record fetch_state : Type := {
  all_items : list json;
  skip : Z;
  data : option json;
  req_no : nat
}.

(** The [for attempt in range(1, max_retries + 1)] loop of one page, with
    [n] attempts left: the values of [data] and [last_exc] and the number of
    requests made when it is left.  A body that is not JSON makes
    [resp.json()] raise [JSONDecodeError], which is a [RequestException]. *)
Fixpoint attempts (n : nat) (up : upstream) (skip chunk : Z) (req : nat)
    (data : option json) (last_exc : option request_exc)
  : option json * option request_exc * nat :=
  match n with
  | O => (data, last_exc, req)
  | S n' =>
      match up req skip chunk with
      | NetError => attempts n' up skip chunk (S req) data (Some RequestException)
      | Resp status body =>
          if is_http_error status then
            if is_auth_status status then
              (Some JNull, Some (HTTPError status), S req)
            else attempts n' up skip chunk (S req) data (Some (HTTPError status))
          else
            match body with
            | None => attempts n' up skip chunk (S req) data (Some RequestException)
            | Some j => (Some j, None, S req)
            end
      end
  end.

(** The first container key among [messages], [data], [results] that holds
    a list. *)
Fixpoint first_list_key (keys : list string) (d : document) : option (list json) :=
  match keys with
  | [] => None
  | key :: keys' =>
      match dict_get key d with
      | Some (JList l) => Some l
      | _ => first_list_key keys' d
      end
  end.

(** "Normalize to items list and optional total". *)
Definition normalize (data : json) : result (list json * json) :=
  match data with
  | JList l => Ok (l, JNull)
  | JDict d =>
      match dict_get "items" d with
      | Some (JList l) => Ok (l, json_get "total" d)
      | _ =>
          match first_list_key ["messages"; "data"; "results"] d with
          | Some l => Ok (l, json_get "total" d)
          | None =>
              if forallb is_dict (dict_values d) then Ok (dict_values d, JNull)
              else Ok ([], JNull)
          end
      end
  | _ => Raise ValueError
  end.

(** [total is not None and ... int(total)]: the total the page reports, if
    it reports one. *)
Definition reported_total (total : json) : result (option Z) :=
  match total with
  | JNull => Ok None
  | _ => t ← py_int total; Ok (Some t)
  end.

Inductive step : Type :=
| Continue (st : fetch_state)
| Break (items : list json)
| Raised (e : pyexc).

(** The statements of the [while True] body after the page is normalized. *)
Definition after_page (chunk : Z) (st : fetch_state) (d : json) (req : nat) : step :=
  match normalize d with
  | Raise e => Raised e
  | Ok (items, total) =>
      match items with
      | [] => Break (all_items st)
      | _ =>
          let all := all_items st ++ items in
          let next :=
            if Z.of_nat (length items) <? chunk then Break all
            else Continue {| all_items := all; skip := skip st + chunk;
                             data := Some d; req_no := req |} in
          match reported_total total with
          | Raise e => Raised e
          | Ok None => next
          | Ok (Some t) => if Z.of_nat (length all) >=? t then Break all else next
          end
      end
  end.

(** One turn of the [while True] loop. *)
Definition loop_body (up : upstream) (chunk : Z) (st : fetch_state) : step :=
  let '(data', last_exc, req) :=
    attempts max_retries up (skip st) chunk (req_no st) (data st) None in
  match last_exc, data' with
  | Some _, None => Raised UnboundLocalError
  | Some _, Some JNull => Break (all_items st)
  | _, None => Raised UnboundLocalError
  | _, Some d => after_page chunk st d req
  end.

(** The [while True] loop, run for at most [fuel] pages; [None] when the
    loop has not ended by then. *)
Fixpoint paging_loop (fuel : nat) (up : upstream) (chunk : Z) (st : fetch_state)
  : option (result (list json)) :=
  match fuel with
  | O => None
  | S fuel' =>
      match loop_body up chunk st with
      | Continue st' => paging_loop fuel' up chunk st'
      | Break items => Some (Ok items)
      | Raised e => Some (Raise e)
      end
  end.

(** The probe for the total, made when no [message_limit] is given. *)
Definition probe (up : upstream) : result (option Z) :=
  match up O 0 1 with
  | NetError => Ok None
  | Resp status body =>
      if is_http_error status then Ok None
      else
        match body with
        | Some (JDict pdata) =>
            if truthy (json_get "total" pdata) then
              t ← py_int (json_get "total" pdata); Ok (Some t)
            else Ok None
        | _ => Ok None
        end
  end.

Definition initial_state (req : nat) : fetch_state :=
  {| all_items := []; skip := 0; data := None; req_no := req |}.

Definition chunk_of (message_limit : option Z) : Z :=
  match message_limit with
  | Some n => n
  | None => default_chunk
  end.

(** [fetch_messages_once(timeout, message_limit)], given [fuel] turns of the
    paging loop.  The [timeout] only decides which requests time out, and a
    request that times out is a [NetError] of the upstream. *)
Definition fetch_messages_once (fuel : nat) (up : upstream) (message_limit : option Z)
  : option (result (list json)) :=
  match message_limit with
  | Some _ => paging_loop fuel up (chunk_of message_limit) (initial_state 0)
  | None =>
      match probe up with
      | Raise e => Some (Raise e)
      | Ok limit => paging_loop fuel up (chunk_of limit) (initial_state 1)
      end
  end.

(** ** The search engine ([search_engine.SearchEngine]) *)

(** The two attributes of the engine: [self.index] and [self.docs]. *)
Record engine : Type := {
  index : gmap string (gset string);
  docs : list (string * document)
}.

Definition empty_engine : engine := {| index := ∅; docs := [] |}.

(** [self.index.get(t, set())] *)
Definition postings (ix : gmap string (gset string)) (t : string) : gset string :=
  default ∅ (ix !! t).

(** [key in d] for a value that is no dict: substring test on a string,
    membership in a list, [TypeError] otherwise. *)
Definition contains_key (key : string) (d : json) : result bool :=
  match d with
  | JStr s => Ok (str_contains key s)
  | JList l =>
      Ok (existsb (λ x, match x with JStr s => String.eqb key s | _ => false end) l)
  | JDict o => Ok (dict_mem key o)
  | JNull | JBool _ | JInt _ => Raise TypeError
  end.

(** The identifier of a document: [str(d[id_field])], else [str(d["_id"])],
    else none. *)
Definition resolve_id (id_field : string) (d : document) : option string :=
  match dict_get id_field d with
  | Some v => Some (py_str v)
  | None =>
      match dict_get "_id" d with
      | Some v => Some (py_str v)
      | None => None
      end
  end.

(** The values of a document that are strings, in the order of its fields. *)
Definition string_values (d : document) : list string :=
  omap (λ v, match v with JStr s => Some s | _ => None end) (dict_values d).

(** [self.index[token].add(doc_id)] on the [defaultdict(set)] *)
Definition add_posting (doc_id token : string) (ix : gmap string (gset string))
  : gmap string (gset string) :=
  <[token := postings ix token ∪ {[doc_id]}]> ix.

(** The body of [for d in docs] for a document that is a dict. *)
Definition index_document (id_field : string) (e : engine) (d : document) : engine :=
  match resolve_id id_field d with
  | None => e
  | Some doc_id =>
      let full := join " " (string_values d) in
      let tokens : gset string := list_to_set (tokenize full) in
      {| docs := dict_set doc_id d (docs e);
         index := set_fold (add_posting doc_id) (index e) tokens |}
  end.

(** The body of [for d in docs] for any value the iterable yields: on a
    value that is no dict the membership tests run as Python runs them, and
    the subscript that follows a successful test raises [TypeError]. *)
Definition index_item (id_field : string) (e : engine) (d : json) : result engine :=
  match d with
  | JDict o => Ok (index_document id_field e o)
  | _ =>
      match contains_key id_field d with
      | Raise x => Raise x
      | Ok true => Raise TypeError
      | Ok false =>
          match contains_key "_id" d with
          | Raise x => Raise x
          | Ok true => Raise TypeError
          | Ok false => Ok e
          end
      end
  end.

(** The [for d in docs] loop: the engine it leaves behind, and how it ended. *)
Fixpoint build_loop (id_field : string) (e : engine) (items : list json)
  : engine * result unit :=
  match items with
  | [] => (e, Ok tt)
  | d :: items' =>
      match index_item id_field e d with
      | Ok e' => build_loop id_field e' items'
      | Raise x => (e, Raise x)
      end
  end.

(** [build_index] clears the two attributes of the engine it is called on
    and fills them again. *)
Definition build_index (e : engine) (items : list json) (id_field : string)
  : engine * result unit :=
  build_loop id_field {| index := ∅; docs := [] |} items.

Definition _score (e : engine) (query_tokens : list string) (doc_id : string) : nat :=
  length (filter (λ t, doc_id ∈ postings (index e) t) query_tokens).

Definition exact_match (q : string) (doc : document) : bool :=
  String.eqb (py_str (json_get "id" doc)) q ||
  String.eqb (py_str (json_get "user_id" doc)) q.

(** The loop over the query tokens that gathers [candidate_ids]. *)
Definition gather_candidates (ix : gmap string (gset string)) (q_tokens : list string)
  : option (gset string) :=
  foldl (λ candidate_ids t,
           match candidate_ids with
           | None => Some (postings ix t)
           | Some ids => Some (ids ∪ postings ix t)
           end) None q_tokens.

(** The fallback scan: the ids of the documents whose lowercased string
    values, joined by a space, contain the lowercased query. *)
Definition substring_scan (store : list (string * document)) (query : string)
  : list string :=
  dict_keys
    (filter (λ kv, str_contains (lower query)
                     (join " " (lower <$> string_values (snd kv))) = true) store).

(** The sort key [(-score, cid)] and the order of Python tuples on it. *)
Definition sort_key (x : nat * string) : Z * string := (- Z.of_nat (fst x), snd x).

Definition tuple_le (a b : Z * string) : Prop :=
  fst a < fst b ∨ (fst a = fst b ∧ String.leb (snd a) (snd b) = true).

Definition scored_le (x y : nat * string) : Prop := tuple_le (sort_key x) (sort_key y).

#[global] Instance scored_le_dec x y : Decision (scored_le x y).
Proof. unfold scored_le, tuple_le. apply _. Defined.

(** [[self.docs[cid] for cid in ids]] *)
Fixpoint lookup_all (store : list (string * document)) (ids : list string)
  : result (list document) :=
  match ids with
  | [] => Ok []
  | cid :: ids' =>
      doc ← dict_getitem cid store;
      rest ← lookup_all store ids';
      Ok (doc :: rest)
  end.

(** "retrieve candidates from inverted index": the union of the posting
    sets of the query tokens, or the fallback scan when it is empty. *)
Definition candidates (e : engine) (query : string) (q_tokens : list string)
  : list string :=
  match gather_candidates (index e) q_tokens with
  | Some ids =>
      if decide (ids = ∅) then substring_scan (docs e) query else elements ids
  | None => substring_scan (docs e) query
  end.

(** "score and sort": [scored.sort(key=lambda x: (-x[0], x[1]))] and the
    ids read off the sorted pairs. *)
Definition rank (e : engine) (q_tokens : list string) (cands : list string)
  : list string :=
  let scored := (λ cid, (_score e q_tokens cid, cid)) <$> cands in
  snd <$> merge_sort scored_le scored.

Definition search (e : engine) (query : string) (page page_size : Z)
  : result (nat * list document) :=
  let start := (page - 1) * page_size in
  let stop := start + page_size in
  if uuid_re_match (strip query) then
    let q := strip query in
    let matches := filter (λ doc, exact_match q doc = true) (dict_values (docs e)) in
    Ok (length matches, py_slice matches start stop)
  else if negb (str_nonempty query) then
    let all_ids := dict_keys (docs e) in
    results ← lookup_all (docs e) (py_slice all_ids start stop);
    Ok (length all_ids, results)
  else
    let q_tokens := tokenize query in
    match q_tokens with
    | [] => Ok (O, @nil document)
    | _ =>
        let ordered_ids := rank e q_tokens (candidates e query q_tokens) in
        results ← lookup_all (docs e) (py_slice ordered_ids start stop);
        Ok (length ordered_ids, results)
    end.

(** ** The loader and the startup of the service ([DataLoader.load], [main.lifespan]) *)

(** The loader and the engine of the service: [loader.docs] and [engine]. *)
Record service : Type := {
  loader_docs : list json;
  service_engine : engine
}.

(** [DataLoader.load]: [self.docs = fetch_messages_once()]; the assignment is
    not reached when the fetch raises. *)
Definition load (fuel : nat) (up : upstream) (s : service)
  : option (service * result (list json)) :=
  match fetch_messages_once fuel up None with
  | None => None
  | Some (Ok fetched) =>
      Some ({| loader_docs := fetched; service_engine := service_engine s |}, Ok fetched)
  | Some (Raise x) => Some (s, Raise x)
  end.

(** The [try] block of the startup: load, then [build_index] on what was
    loaded; an exception of either is logged and ends the block. *)
Definition startup (fuel : nat) (up : upstream) (s : service) : option service :=
  match load fuel up s with
  | None => None
  | Some (s', Raise _) => Some s'
  | Some (s', Ok fetched) =>
      Some {| loader_docs := loader_docs s';
              service_engine := (build_index (service_engine s') fetched "id").1 |}
  end.

(** * More of the code *)

(** ** The periodic refresh ([DataLoader.start_periodic]) *)

(** One turn of the loop of the refresh thread: [self.load()], any
    exception swallowed. *)
Definition refresh_cycle (fuel : nat) (up : upstream) (s : service) : option service :=
  match load fuel up s with
  | None => None
  | Some (s', _) => Some s'
  end.

(** The loop of the refresh thread, for as many turns as the stop event
    leaves it; each turn meets its own upstream. *)
Fixpoint run (fuel : nat) (cycles : list upstream) (s : service) : option service :=
  match cycles with
  | [] => Some s
  | up :: cycles' =>
      match refresh_cycle fuel up s with
      | None => None
      | Some s' => run fuel cycles' s'
      end
  end.

(** ** The HTTP endpoints ([main.search], [main.health]) *)




(** * The vocabulary of the properties *)

(** ** Engines and rankings *)

(** The tokens a document is indexed under. *)
Definition doc_tokens (d : document) : list string :=
  tokenize (join " " (string_values d)).

(** What every engine left by [build_index] satisfies, whether the call
    ended normally or not: the keys of the store are pairwise distinct and
    every identifier of a posting set is one of them. *)
Definition engine_inv (e : engine) : Prop :=
  NoDup (dict_keys (docs e)) ∧
  ∀ t cid, cid ∈ postings (index e) t → cid ∈ dict_keys (docs e).







(** ** Pages of the fetcher *)

(** How the attempts for one page end, read off the responses alone: with
    the payload of the first response that is no error, with a 401 or 403,
    or with all the attempts used up. *)
Inductive page_result : Type :=
| PageData (payload : json)
| PageAuth (status : Z)
| PageExhausted.

Fixpoint page_outcome (n : nat) (up : upstream) (skip chunk : Z) (req : nat) : page_result :=
  match n with
  | O => PageExhausted
  | S n' =>
      match up req skip chunk with
      | NetError => page_outcome n' up skip chunk (S req)
      | Resp status body =>
          if is_http_error status then
            if is_auth_status status then PageAuth status
            else page_outcome n' up skip chunk (S req)
          else
            match body with
            | None => page_outcome n' up skip chunk (S req)
            | Some payload => PageData payload
            end
      end
  end.

(** The accepted shapes of a page payload: a bare array, an object with an
    [items] array, an object with a [messages], [data] or [results] array,
    an object whose every value is an object. *)
Definition holds_list (key : string) (d : document) : bool :=
  match dict_get key d with
  | Some (JList _) => true
  | _ => false
  end.

Definition accepted_shape (payload : json) : bool :=
  match payload with
  | JList _ => true
  | JDict d =>
      holds_list "items" d || holds_list "messages" d || holds_list "data" d ||
      holds_list "results" d || forallb is_dict (dict_values d)
  | _ => false
  end.

(** ** Sample documents and mock upstreams *)

(** The documents of the repository's test. *)
Definition sample_docs : list json :=
  [ JDict [("id", JStr "1"); ("text", JStr "Hello world")];
    JDict [("id", JStr "2"); ("text", JStr "Goodbye world")];
    JDict [("id", JStr "3"); ("text", JStr "Hello there")] ].




(** The engine before a rebuild, and items of which the second is no
    document. *)
Definition previous_engine : engine := (build_index empty_engine sample_docs "id").1.

Definition failing_items : list json :=
  [ JDict [("id", JStr "9"); ("text", JStr "fresh hello")];
    JInt 5;
    JDict [("id", JStr "10"); ("text", JStr "never reached")] ].


(** The first page of a mock upstream. *)
Definition two_items : list json := take 2 sample_docs.

(** Every request fails with a 500. *)
Definition always_500 : upstream := λ _ _ _, Resp 500 None.

(** A full first page of two items out of four, then [r] for every request. *)
Definition first_page_then (r : response) : upstream := λ req _ _,
  match req with
  | O => Resp 200 (Some (JDict [("items", JList two_items); ("total", JInt 4)]))
  | _ => r
  end.

(** Every request gets a page of one item, and no total. *)
Definition endless_upstream : upstream := λ _ _ _,
  Resp 200 (Some (JList [JDict [("id", JStr "x")]])).

(** ** Tokens *)

Fixpoint all_chars (p : ascii → bool) (s : string) : bool :=
  match s with
  | EmptyString => true
  | String c s' => p c && all_chars p s'
  end.


(** A well-formed token: not empty, and made of [a-z0-9] only. *)
Definition is_token (t : string) : bool := str_nonempty t && all_chars is_token_char t.

(** An ASCII letter or digit: what the tokenizer keeps of a text. *)
Definition is_alnum (c : ascii) : bool := is_token_char (lower_char c).

(** The non-empty pieces of [re_split]. *)
Definition pieces (s : string) : list string :=
  filter (λ t, str_nonempty t = true) (re_split s).

(** ** Stores *)

(** Every document of the store is filed under the identifier it resolves
    to. *)
Definition filed_by_id (id_field : string) (e : engine) : Prop :=
  ∀ cid d, (cid, d) ∈ docs e → resolve_id id_field d = Some cid.


(** Every document of the store is indexed under each of its tokens. *)
Definition tokens_indexed (e : engine) : Prop :=
  ∀ cid d t, (cid, d) ∈ docs e → t ∈ doc_tokens d → cid ∈ postings (index e) t.

(** ** Upstreams that serve a collection *)

(** The page of a collection that a request for [limit] items from offset
    [skip] asks for. *)
Definition serve_page (coll : list json) (skip limit : Z) : list json :=
  take (Z.to_nat limit) (drop (Z.to_nat skip) coll).

(** An upstream that answers every request with the page asked for and the
    size of the collection. *)
Definition paged_upstream (coll : list json) : upstream := λ _ skip limit,
  Resp 200 (Some (JDict [("items", JList (serve_page coll skip limit));
                         ("total", JInt (Z.of_nat (length coll)))])).

(** An upstream that answers every request with the page asked for, as a
    bare array. *)
Definition array_upstream (coll : list json) : upstream := λ _ skip limit,
  Resp 200 (Some (JList (serve_page coll skip limit))).

(** An upstream whose answers depend on the parameters of the request
    alone, and the same upstream behind a link on which the requests
    numbered by [fails] are answered with a 503. *)
Definition steady (serve : Z → Z → response) : upstream := λ _ skip limit,
  serve skip limit.

Definition flaky (fails : nat → bool) (serve : Z → Z → response) : upstream :=
  λ req skip limit, if fails req then Resp 503 None else serve skip limit.

(** Two states of the paging loop with the same variables, the count of
    the requests made apart. *)
Definition same_vars (st1 st2 : fetch_state) : Prop :=
  all_items st1 = all_items st2 ∧ skip st1 = skip st2 ∧ data st1 = data st2.

(** Two turns of the loop that end alike. *)
Definition same_step (s1 s2 : step) : Prop :=
  match s1, s2 with
  | Continue st1, Continue st2 => same_vars st1 st2
  | Break items1, Break items2 => items1 = items2
  | Raised e1, Raised e2 => e1 = e2
  | _, _ => False
  end.

(** An upstream that serves a collection like [paged_upstream] for its
    first [pages] requests and answers 401 from then on. *)
Definition expiring_upstream (pages : nat) (coll : list json) : upstream :=
  λ req skip limit,
    if (req <? pages)%nat then paged_upstream coll req skip limit else Resp 401 None.

(** * Properties *)

(** ** Slices and pages *)

Section slices.
Context {A : Type}.
Implicit Types l : list A.




End slices.

(** ** Dictionaries *)

Section dict_facts.
Context {V : Type}.
Implicit Types d : list (string * V).



Lemma dict_get_Some k v d : dict_get k d = Some v → (k, v) ∈ d.
Proof.
  induction d as [|[k' v'] d IH]; simpl; [done|].
  destruct (String.eqb_spec k k').
  - intros [= ->]. subst. left.
  - intros. right. auto.
Qed.



Lemma dict_get_NoDup k v d : NoDup (dict_keys d) → (k, v) ∈ d → dict_get k d = Some v.
Proof.
  unfold dict_keys. induction d as [|[k' v'] d IH]; simpl.
  - intros _ Hin. by apply elem_of_nil in Hin.
  - rewrite NoDup_cons. intros [Hk' Hd] Hin.
    apply elem_of_cons in Hin as [[= -> ->]|Hin].
    + by rewrite String.eqb_refl.
    + destruct (String.eqb_spec k k'); [|by apply IH].
      subst. exfalso. apply Hk'. apply list_elem_of_fmap. by exists (k', v).
Qed.

Lemma elem_of_dict_keys_set k k' v d :
  k' ∈ dict_keys (dict_set k v d) ↔ k' = k ∨ k' ∈ dict_keys d.
Proof.
  unfold dict_keys. induction d as [|[k0 v0] d IH]; simpl.
  - rewrite list_elem_of_singleton. split; [auto|]. intros [?|H]; [done|].
    by apply elem_of_nil in H.
  - destruct (String.eqb_spec k k0); simpl.
    + subst. rewrite !elem_of_cons. naive_solver.
    + rewrite !elem_of_cons, IH. naive_solver.
Qed.

Lemma NoDup_dict_keys_set k v d : NoDup (dict_keys d) → NoDup (dict_keys (dict_set k v d)).
Proof.
  induction d as [|[k0 v0] d IH]; simpl.
  - intros _. apply NoDup_singleton.
  - unfold dict_keys in *. simpl. rewrite NoDup_cons. intros [Hk0 Hd].
    destruct (String.eqb_spec k k0); simpl.
    + subst. by apply NoDup_cons.
    + apply NoDup_cons. split; [|auto].
      intros Hin. apply (elem_of_dict_keys_set k k0 v d) in Hin. naive_solver.
Qed.

End dict_facts.

(** ** Reading documents back from the store *)

Section lookups.
Implicit Types store : list (string * document).






End lookups.

(** ** The index and the store after [build_index] *)

Section index_facts.
Implicit Types ix : gmap string (gset string).
Implicit Types e : engine.

Lemma postings_empty t : postings ∅ t = ∅.
Proof. unfold postings. by rewrite lookup_empty. Qed.

Lemma elem_of_postings_add cid t ix cid' t' :
  cid' ∈ postings (add_posting cid t ix) t' ↔
  cid' ∈ postings ix t' ∨ (cid' = cid ∧ t' = t).
Proof.
  unfold add_posting, postings. destruct (decide (t = t')) as [->|Hne].
  - rewrite lookup_insert_eq. simpl. set_solver.
  - rewrite lookup_insert_ne by done. naive_solver.
Qed.

Lemma elem_of_postings_foldr cid (ts : list string) ix cid' t' :
  cid' ∈ postings (foldr (add_posting cid) ix ts) t' ↔
  cid' ∈ postings ix t' ∨ (cid' = cid ∧ t' ∈ ts).
Proof.
  induction ts as [|t ts IH]; simpl.
  - rewrite elem_of_nil. tauto.
  - rewrite elem_of_postings_add, IH, elem_of_cons. tauto.
Qed.

Lemma elem_of_postings_set_fold cid (ts : gset string) ix cid' t' :
  cid' ∈ postings (set_fold (add_posting cid) ix ts) t' ↔
  cid' ∈ postings ix t' ∨ (cid' = cid ∧ t' ∈ ts).
Proof.
  unfold set_fold. simpl. rewrite elem_of_postings_foldr, elem_of_elements. tauto.
Qed.

Lemma elem_of_postings_index_document id_field e d cid t :
  cid ∈ postings (index (index_document id_field e d)) t ↔
  cid ∈ postings (index e) t ∨ (resolve_id id_field d = Some cid ∧ t ∈ doc_tokens d).
Proof.
  unfold index_document, doc_tokens. destruct (resolve_id id_field d) as [doc_id|]; simpl.
  - rewrite elem_of_postings_set_fold, elem_of_list_to_set. naive_solver.
  - naive_solver.
Qed.

Lemma elem_of_keys_index_document id_field e d k :
  k ∈ dict_keys (docs (index_document id_field e d)) ↔
  k ∈ dict_keys (docs e) ∨ resolve_id id_field d = Some k.
Proof.
  unfold index_document. destruct (resolve_id id_field d) as [doc_id|]; simpl.
  - rewrite elem_of_dict_keys_set. naive_solver.
  - naive_solver.
Qed.

Lemma engine_inv_empty : engine_inv empty_engine.
Proof.
  split; simpl; [constructor|]. intros t cid. rewrite postings_empty. set_solver.
Qed.

Lemma engine_inv_index_document id_field e d :
  engine_inv e → engine_inv (index_document id_field e d).
Proof.
  intros [Hnd Hsub]. split.
  - unfold index_document. destruct (resolve_id id_field d); simpl; [|done].
    by apply NoDup_dict_keys_set.
  - intros t cid. rewrite elem_of_postings_index_document, elem_of_keys_index_document.
    naive_solver.
Qed.

(** An item that is no dict leaves the engine as it is, or raises. *)
Lemma index_item_Ok id_field e item e' :
  index_item id_field e item = Ok e' →
  e' = e ∨ ∃ d, item = JDict d ∧ e' = index_document id_field e d.
Proof.
  destruct item; simpl; try discriminate;
    try (intros [= <-]; right; eauto);
    repeat (case_match; try discriminate); intros [= <-]; by left.
Qed.

Lemma engine_inv_build_loop id_field e items :
  engine_inv e → engine_inv (build_loop id_field e items).1.
Proof.
  revert e. induction items as [|item items IH]; intros e He; simpl; [done|].
  destruct (index_item id_field e item) as [e'|x] eqn:Hitem; [|done].
  apply IH. apply index_item_Ok in Hitem as [->|(d & -> & ->)]; [done|].
  by apply engine_inv_index_document.
Qed.

Lemma engine_inv_build_index e items id_field :
  engine_inv (build_index e items id_field).1.
Proof. apply engine_inv_build_loop, engine_inv_empty. Qed.

(** On documents that are all dicts the loop is a fold and ends normally. *)
Lemma build_loop_dicts id_field e (ds : list document) :
  build_loop id_field e (JDict <$> ds) = (foldl (index_document id_field) e ds, Ok tt).
Proof. revert e. induction ds as [|d ds IH]; intros e; simpl; [done | apply IH]. Qed.

Lemma elem_of_postings_fold id_field (ds : list document) e cid t :
  cid ∈ postings (index (foldl (index_document id_field) e ds)) t ↔
  cid ∈ postings (index e) t ∨
  ∃ d, d ∈ ds ∧ resolve_id id_field d = Some cid ∧ t ∈ doc_tokens d.
Proof.
  revert e. induction ds as [|d ds IH]; intros e; simpl.
  - split; [auto|]. intros [?|(d & Hd & _)]; [done|]. by apply elem_of_nil in Hd.
  - rewrite IH, elem_of_postings_index_document. split.
    + intros [[?|[??]]|(d' & ? & ? & ?)]; [by left|right..].
      * exists d. split_and!; [left|done..].
      * exists d'. split_and!; [by right|done..].
    + intros [?|(d' & [->|?]%elem_of_cons & ? & ?)]; [by left; left|by left; right|].
      right. by exists d'.
Qed.

End index_facts.

(** ** The order of the ranking *)

Lemma string_leb_trans s1 s2 s3 :
  String.leb s1 s2 = true → String.leb s2 s3 = true → String.leb s1 s3 = true.
Proof.
  unfold String.leb. revert s2 s3.
  induction s1 as [|a s1 IH]; intros [|b s2] [|c s3]; simpl; try done.
  unfold Ascii.compare.
  destruct (N.compare_spec (N_of_ascii a) (N_of_ascii b)) as [Hab|Hab|Hab]; [| |done].
  - rewrite Hab. destruct (N_of_ascii b ?= N_of_ascii c)%N; [apply IH|done..].
  - destruct (N.compare_spec (N_of_ascii b) (N_of_ascii c)) as [Hbc|Hbc|Hbc]; [| |done].
    + rewrite <- Hbc. by apply N.compare_lt_iff in Hab as ->.
    + assert (N_of_ascii a < N_of_ascii c)%N as ->%N.compare_lt_iff by lia. done.
Qed.

#[global] Instance scored_le_total : Total scored_le.
Proof.
  intros [s1 c1] [s2 c2]. unfold scored_le, tuple_le, sort_key. simpl.
  destruct (Nat.lt_trichotomy s1 s2) as [?|[->|?]]; [right; left; lia| |left; left; lia].
  destruct (String.leb_total c1 c2); [left|right]; right; done.
Qed.

#[global] Instance scored_le_trans : Transitive scored_le.
Proof.
  intros [s1 c1] [s2 c2] [s3 c3]. unfold scored_le, tuple_le, sort_key. simpl.
  intros [?|[? H12]] [?|[? H23]]; [left; lia..|].
  right. split; [lia|]. by eapply string_leb_trans.
Qed.

#[global] Instance scored_le_antisym : AntiSymm (=) scored_le.
Proof.
  intros [s1 c1] [s2 c2]. unfold scored_le, tuple_le, sort_key. simpl.
  intros [?|[? H12]] [?|[? H21]]; try lia.
  f_equal; [lia | by apply String.leb_antisym].
Qed.

Section ranking.
Context (e : engine) (q_tokens : list string).
Local Abbreviation scored_of := (λ cid : string, (_score e q_tokens cid, cid)).





(** The ranking does not depend on the order in which the candidates are
    listed, which for a Python set is arbitrary. *)
Lemma rank_order_independent cands1 cands2 :
  cands1 ≡ₚ cands2 → rank e q_tokens cands1 = rank e q_tokens cands2.
Proof.
  intros Hp. unfold rank. f_equal.
  apply (Sorted_unique scored_le); [apply Sorted_merge_sort, _..|].
  by rewrite !merge_sort_Permutation, Hp.
Qed.
End ranking.

(** ** Candidates *)

Section candidates_facts.
Implicit Types ix : gmap string (gset string).








End candidates_facts.

(** ** The pages of [search] *)






(** ** Identifier-shaped queries *)

Section uuid_facts.







End uuid_facts.



(** ** The trimmed query and the regular expression *)

Section strip_facts.




End strip_facts.


(** ** Token queries *)




(** ** Rebuilding *)

Lemma build_loop_app id_field e items1 items2 :
  build_loop id_field e (items1 ++ items2) =
  match build_loop id_field e items1 with
  | (e1, Ok _) => build_loop id_field e1 items2
  | failed => failed
  end.
Proof.
  revert e. induction items1 as [|d items1 IH]; intros e; simpl; [done|].
  by destruct (index_item id_field e d).
Qed.

(** C2, as stated, fails: a rebuild that raises at its second item leaves
    the engine with the first item alone; the three documents of the
    previous store are gone. *)
Lemma failed_rebuild_replaces_store :
  let rebuilt := build_index previous_engine failing_items "id" in
  rebuilt.2 = Raise TypeError ∧
  dict_keys (docs previous_engine) = ["1"; "2"; "3"] ∧
  dict_keys (docs rebuilt.1) = ["9"] ∧
  search previous_engine "world" 1 10 ≠ search rebuilt.1 "world" 1 10.
Proof. vm_compute. split_and!; done. Qed.

(** C2, amended: [build_index] empties the store and the index of the
    engine it is called on and fills them item by item, so what it leaves
    depends on the items alone and not on the previous content; when an
    item raises, the call ends with that exception and the engine holds
    exactly what building the items before it gives: the previous store and
    index are not kept.  A fetch that raises, for its part, leaves the
    loader and the engine as they were: [build_index] is not reached. *)
Theorem build_index_failure_leaves_prefix e (before : list json) bad rest id_field e_before x :
  build_index empty_engine before id_field = (e_before, Ok tt) →
  index_item id_field e_before bad = Raise x →
  build_index e (before ++ bad :: rest) id_field = (e_before, Raise x) ∧
  (∀ e' items, build_index e' items id_field = build_index e items id_field) ∧
  (∀ fuel up s x',
     fetch_messages_once fuel up None = Some (Raise x') → startup fuel up s = Some s).
Proof.
  unfold build_index. intros Hbefore Hbad. split_and!; [|done|].
  - rewrite build_loop_app, Hbefore. simpl. by rewrite Hbad.
  - intros fuel up s x' Hfetch. unfold startup, load. by rewrite Hfetch.
Qed.

Lemma build_index_failure_leaves_prefix_witness :
  let e_before := (build_index empty_engine (take 1 failing_items) "id").1 in
  build_index empty_engine (take 1 failing_items) "id" = (e_before, Ok tt) ∧
  index_item "id" e_before (JInt 5) = Raise TypeError ∧
  build_index previous_engine failing_items "id" = (e_before, Raise TypeError) ∧
  startup 1 (λ _ _ _, Resp 200 (Some (JStr "maintenance")))
    {| loader_docs := sample_docs; service_engine := previous_engine |} =
    Some {| loader_docs := sample_docs; service_engine := previous_engine |}.
Proof.
  intros e_before.
  pose proof (build_index_failure_leaves_prefix previous_engine (take 1 failing_items)
                (JInt 5) (drop 2 failing_items) "id" e_before TypeError
                eq_refl eq_refl) as (Hbuild & _ & Hfetch).
  split_and!; [reflexivity..|exact Hbuild|].
  by apply (Hfetch _ _ _ ValueError).
Defined.

(** ** The identifiers of the store and of the index *)



(** ** The empty query *)


Section store_contents.
Context (id_field : string).
Implicit Types ds : list document.


End store_contents.



(** ** The pages of the fetcher *)

Section fetch_facts.
Context (up : upstream) (chunk : Z).
Implicit Types st : fetch_state.

Lemma attempts_data n skip req data last_exc payload :
  page_outcome n up skip chunk req = PageData payload →
  ∃ req', attempts n up skip chunk req data last_exc = (Some payload, None, req').
Proof.
  revert req data last_exc. induction n as [|n IH]; intros req data last_exc; simpl; [done|].
  destruct (up req skip chunk) as [status [j|]|]; repeat case_match; eauto; try done.
  intros [= <-]. eauto.
Qed.

Lemma attempts_auth n skip req data last_exc status :
  page_outcome n up skip chunk req = PageAuth status →
  ∃ req', attempts n up skip chunk req data last_exc =
          (Some JNull, Some (HTTPError status), req').
Proof.
  revert req data last_exc. induction n as [|n IH]; intros req data last_exc; simpl; [done|].
  destruct (up req skip chunk) as [status' [j|]|]; repeat case_match; eauto; try done.
  all: intros [= <-]; eauto.
Qed.

Lemma attempts_exhausted_from n skip req data exc :
  page_outcome n up skip chunk req = PageExhausted →
  ∃ exc', attempts n up skip chunk req data (Some exc) =
          (data, Some exc', (req + n)%nat).
Proof.
  revert req exc. induction n as [|n IH]; intros req exc; simpl.
  - rewrite Nat.add_0_r. eauto.
  - replace (req + S n)%nat with (S req + n)%nat by lia.
    destruct (up req skip chunk) as [status [payload|]|]; [| |by apply IH].
    + destruct (is_http_error status); [|done].
      destruct (is_auth_status status); [done | by apply IH].
    + destruct (is_http_error status); [|by apply IH].
      destruct (is_auth_status status); [done | by apply IH].
Qed.

(** When the retries are used up, [data] is what it was before the page. *)
Lemma attempts_exhausted n skip req data last_exc :
  page_outcome (S n) up skip chunk req = PageExhausted →
  ∃ exc, attempts (S n) up skip chunk req data last_exc =
         (data, Some exc, (req + S n)%nat).
Proof.
  simpl. replace (req + S n)%nat with (S req + n)%nat by lia.
  destruct (up req skip chunk) as [status [payload|]|];
    [| |by apply attempts_exhausted_from].
  - destruct (is_http_error status); [|done].
    destruct (is_auth_status status); [done | by apply attempts_exhausted_from].
  - destruct (is_http_error status); [|by apply attempts_exhausted_from].
    destruct (is_auth_status status); [done | by apply attempts_exhausted_from].
Qed.

Lemma loop_body_auth st status :
  page_outcome max_retries up (skip st) chunk (req_no st) = PageAuth status →
  loop_body up chunk st = Break (all_items st).
Proof.
  intros H. unfold loop_body.
  by destruct (attempts_auth _ _ _ (data st) None _ H) as [req' ->].
Qed.

Lemma loop_body_data st payload :
  page_outcome max_retries up (skip st) chunk (req_no st) = PageData payload →
  ∃ req', loop_body up chunk st = after_page chunk st payload req'.
Proof.
  intros H. unfold loop_body.
  destruct (attempts_data _ _ _ (data st) None _ H) as [req' ->]. eauto.
Qed.

Lemma paging_loop_more_fuel fuel extra st r :
  paging_loop fuel up chunk st = Some r → paging_loop (fuel + extra) up chunk st = Some r.
Proof.
  revert st. induction fuel as [|fuel IH]; intros st; simpl; [done|].
  destruct (loop_body up chunk st); eauto.
Qed.
End fetch_facts.

Lemma normalize_unaccepted payload :
  accepted_shape payload = false →
  normalize payload = if is_dict payload then Ok ([], JNull) else Raise ValueError.
Proof.
  destruct payload as [| | | | |d]; simpl; try done.
  unfold holds_list. intros H.
  repeat (apply orb_false_iff in H as [H ?]).
  repeat case_match; simplify_eq; done.
Qed.

(** What the loop does on a page whose retries are used up: the test
    [last_exc is not None and data is None] reads a [data] that the page
    has not bound. *)
Lemma loop_body_exhausted up chunk st :
  page_outcome max_retries up (skip st) chunk (req_no st) = PageExhausted →
  loop_body up chunk st =
  match data st with
  | None => Raised UnboundLocalError
  | Some JNull => Break (all_items st)
  | Some stale => after_page chunk st stale (req_no st + max_retries)%nat
  end.
Proof.
  intros H. unfold loop_body, max_retries in *.
  destruct (attempts_exhausted up chunk _ _ _ (data st) None H) as [exc ->].
  by destruct (data st) as [[]|].
Qed.

(** C1: the fetcher does not do what the specification (and the comments
    of the code) say when the three attempts of a page fail with a transient
    error.
    On the first page the call raises [UnboundLocalError]; on a later page
    the items of the page before are appended once more and paging goes on
    (here until the reported total of 4 is reached). *)
Theorem fetch_exhausted_retries_misbehaves :
  fetch_messages_once 1 always_500 (Some 2) = Some (Raise UnboundLocalError) ∧
  fetch_messages_once 2 (first_page_then (Resp 500 None)) (Some 2) =
    Some (Ok (two_items ++ two_items)).
Proof. split; reflexivity. Qed.

(** The scenario of the specification that the code does follow: a 401 on
    the second page gives the items of the first page, and no exception. *)
Example fetch_auth_failure_on_second_page :
  fetch_messages_once 2 (first_page_then (Resp 401 None)) (Some 2) = Some (Ok two_items).
Proof. reflexivity. Qed.

(** C8, as stated, fails: an object of none of the accepted shapes on the
    second page raises nothing, and the call returns the items of the first
    page. *)
Lemma fetch_unknown_object_returns_collected :
  accepted_shape (JDict [("error", JStr "bad request")]) = false ∧
  fetch_messages_once 2
    (first_page_then (Resp 200 (Some (JDict [("error", JStr "bad request")])))) (Some 2) =
    Some (Ok two_items).
Proof. split; reflexivity. Qed.

(** C8, amended: a page payload of none of the accepted shapes that is not
    an object (a string, a number, a boolean, null) ends the whole call with
    [ValueError], and the items collected so far are not returned; an object
    of none of the accepted shapes counts as an empty page: paging stops and
    the call returns the items collected so far. *)
Theorem unaccepted_payload_ends_fetch up chunk st payload fuel :
  page_outcome max_retries up (skip st) chunk (req_no st) = PageData payload →
  accepted_shape payload = false →
  paging_loop (S fuel) up chunk st =
    if is_dict payload then Some (Ok (all_items st)) else Some (Raise ValueError).
Proof.
  intros Hpage Hshape. simpl.
  destruct (loop_body_data up chunk st payload Hpage) as [req' ->].
  unfold after_page. rewrite (normalize_unaccepted _ Hshape).
  by destruct (is_dict payload).
Qed.

Lemma unaccepted_payload_ends_fetch_witness :
  let up := first_page_then (Resp 200 (Some (JStr "maintenance"))) in
  let st := {| all_items := two_items; skip := 2; data := None; req_no := 1 |} in
  page_outcome max_retries up (skip st) 2 (req_no st) = PageData (JStr "maintenance") ∧
  accepted_shape (JStr "maintenance") = false ∧
  paging_loop 1 up 2 st = Some (Raise ValueError) ∧
  fetch_messages_once 2 up (Some 2) = Some (Raise ValueError).
Proof.
  intros up st. split_and!; [reflexivity..| |reflexivity].
  apply (unaccepted_payload_ends_fetch up 2 st (JStr "maintenance") 0); reflexivity.
Defined.

(** ** Termination of paging *)

Lemma endless_upstream_continues fuel st :
  paging_loop fuel endless_upstream 1 st = None.
Proof. revert st. induction fuel as [|fuel IH]; intros st; simpl; [done | apply IH]. Qed.

(** C9, as stated, fails: against an upstream that answers every request
    with a full page and no total, the loop never ends, whatever the number
    of pages it is given. *)
Lemma fetch_endless_upstream_never_returns :
  ¬ ∃ fuel r, fetch_messages_once fuel endless_upstream (Some 1) = Some r.
Proof.
  intros (fuel & r & H). unfold fetch_messages_once in H. simpl in H.
  by rewrite endless_upstream_continues in H.
Qed.

(** C9, amended: on a page that ends in a 401 or 403 the loop stops with
    the items collected so far.  On a page whose request succeeds within
    the three attempts, with a payload normalized to [items] and a total
    that is absent or an integer, the loop stops exactly when the page is
    empty, or the collected count reaches the reported total, or the page
    has fewer items than the chunk; otherwise it goes on with the offset
    advanced by the chunk.  Nothing bounds the number of pages: the loop ends
    only when a page makes it stop. *)
Theorem paging_stops_exactly up chunk st :
  (∀ status fuel,
     page_outcome max_retries up (skip st) chunk (req_no st) = PageAuth status →
     paging_loop (S fuel) up chunk st = Some (Ok (all_items st))) ∧
  (∀ payload items total t,
     page_outcome max_retries up (skip st) chunk (req_no st) = PageData payload →
     normalize payload = Ok (items, total) →
     reported_total total = Ok t →
     let all := all_items st ++ items in
     let reached := ∃ n, t = Some n ∧ n ≤ Z.of_nat (length all) in
     let short := Z.of_nat (length items) < chunk in
     (items = [] → ∀ fuel, paging_loop (S fuel) up chunk st = Some (Ok (all_items st))) ∧
     (items ≠ [] → reached ∨ short →
        ∀ fuel, paging_loop (S fuel) up chunk st = Some (Ok all)) ∧
     (items ≠ [] → ¬ reached → ¬ short →
        ∃ req', ∀ fuel,
          paging_loop (S fuel) up chunk st =
          paging_loop fuel up chunk
            {| all_items := all; skip := skip st + chunk;
               data := Some payload; req_no := req' |})).
Proof.
  split.
  - intros status fuel H. simpl. by rewrite (loop_body_auth _ _ _ _ H).
  - intros payload items total t Hpage Hnorm Htotal all reached short.
    destruct (loop_body_data up chunk st payload Hpage) as [req' Hbody].
    unfold after_page in Hbody. rewrite Hnorm in Hbody.
    split_and!.
    + intros -> fuel. simpl. by rewrite Hbody.
    + intros Hitems Hstop fuel. simpl. rewrite Hbody.
      destruct items as [|item items']; [done|]. rewrite Htotal.
      fold all. destruct t as [n|].
      * destruct (Z.geb_spec (Z.of_nat (length all)) n) as [|Hlt]; [done|].
        destruct Hstop as [(n' & [= <-] & ?)|Hshort]; [lia|].
        by apply Z.ltb_lt in Hshort as ->.
      * destruct Hstop as [(n' & [=] & ?)|Hshort].
        by apply Z.ltb_lt in Hshort as ->.
    + intros Hitems Hreached Hshort. exists req'. intros fuel. simpl. rewrite Hbody.
      destruct items as [|item items']; [done|]. rewrite Htotal. fold all.
      assert ((Z.of_nat (length (item :: items')) <? chunk) = false) as ->.
      { apply Z.ltb_ge. unfold short in Hshort. lia. }
      destruct t as [n|]; [|done].
      destruct (Z.geb_spec (Z.of_nat (length all)) n) as [Hge|]; [|done].
      destruct Hreached. exists n. split; [done | lia].
Qed.

Lemma paging_stops_exactly_witness :
  let up := first_page_then (Resp 401 None) in
  let payload := JDict [("items", JList two_items); ("total", JInt 4)] in
  page_outcome max_retries up 0 2 0 = PageData payload ∧
  normalize payload = Ok (two_items, JInt 4) ∧
  reported_total (JInt 4) = Ok (Some 4) ∧
  (∃ req', ∀ fuel,
     paging_loop (S fuel) up 2 (initial_state 0) =
     paging_loop fuel up 2
       {| all_items := two_items; skip := 2; data := Some payload; req_no := req' |}) ∧
  page_outcome max_retries up 2 2 1 = PageAuth 401 ∧
  paging_loop 1 up 2 {| all_items := two_items; skip := 2; data := Some payload; req_no := 1 |} =
    Some (Ok two_items).
Proof.
  intros up payload. split_and!; [reflexivity..| |reflexivity|].
  - apply (proj2 (paging_stops_exactly up 2 (initial_state 0)) payload two_items (JInt 4) (Some 4));
      [reflexivity..|discriminate| |].
    + intros (n & [= <-] & Hn). simpl in Hn. lia.
    + simpl. lia.
  - apply (proj1 (paging_stops_exactly up 2
             {| all_items := two_items; skip := 2; data := Some payload; req_no := 1 |}) 401 0%nat).
    reflexivity.
Defined.

(** * Further properties of the code *)

(** ** The tokenizer *)

Section tokenizer.
Implicit Types s : string.
Implicit Types c : ascii.

Lemma lower_app s1 s2 : lower (s1 +:+ s2) = lower s1 +:+ lower s2.
Proof. induction s1 as [|c s1 IH]; simpl; [done | by rewrite IH]. Qed.

Lemma lower_char_token c : is_token_char c = true → lower_char c = c.
Proof.
  destruct c as [[] [] [] [] [] [] [] []]; intros H;
    first [reflexivity | vm_compute in H; discriminate].
Qed.



Lemma lower_tokens s : all_chars is_token_char s = true → lower s = s.
Proof.
  induction s as [|c s IH]; simpl; [done|]. intros [Hc Hs]%andb_true_iff.
  by rewrite lower_char_token, IH.
Qed.

Lemma re_split_sep c s :
  is_token_char c = false →
  re_split (String c s) =
  match s with
  | EmptyString => [EmptyString; EmptyString]
  | String c' _ => if is_token_char c' then EmptyString :: re_split s else re_split s
  end.
Proof. intros Hc. simpl. rewrite Hc. by destruct s. Qed.

Lemma re_split_tok c s :
  is_token_char c = true →
  re_split (String c s) =
  match re_split s with
  | h :: t => String c h :: t
  | [] => [String c EmptyString]
  end.
Proof. intros Hc. simpl. by rewrite Hc. Qed.

#[local] Arguments re_split : simpl never.

Lemma re_split_cons s : ∃ h t, re_split s = h :: t.
Proof.
  induction s as [|c s (h & t & IH)]; [by eexists _, _|].
  destruct (is_token_char c) eqn:Hc.
  - rewrite re_split_tok, IH by done. eauto.
  - rewrite re_split_sep by done. destruct s as [|c' s]; [eauto|].
    destruct (is_token_char c'); eauto.
Qed.

Lemma re_split_sep_head c s :
  is_token_char c = false → ∃ t, re_split (String c s) = EmptyString :: t.
Proof.
  revert c. induction s as [|c' s IH]; intros c Hc; rewrite re_split_sep by done; [eauto|].
  destruct (is_token_char c') eqn:Hc'; [eauto|]. by apply IH.
Qed.

Lemma pieces_nil : pieces EmptyString = [].
Proof. done. Qed.

Lemma pieces_cons_empty l :
  filter (λ t, str_nonempty t = true) (EmptyString :: l) =
  filter (λ t, str_nonempty t = true) l.
Proof. by rewrite filter_cons_False by (simpl; congruence). Qed.

Lemma pieces_sep c s : is_token_char c = false → pieces (String c s) = pieces s.
Proof.
  intros Hc. unfold pieces. rewrite re_split_sep by done. destruct s as [|c' s]; [done|].
  destruct (is_token_char c'); [|done]. apply pieces_cons_empty.
Qed.


(** A separator between two texts separates their tokens, whatever stands
    next to it: the first piece of the whole is the first piece of the left
    text, and the other non-empty pieces are those of the left text followed
    by those of the right text. *)
Lemma re_split_app_sep s1 c s2 :
  is_token_char c = false →
  ∃ h t t', re_split s1 = h :: t ∧ re_split (s1 +:+ String c s2) = h :: t' ∧
            filter (λ t, str_nonempty t = true) t' =
            filter (λ t, str_nonempty t = true) t ++ pieces s2.
Proof.
  intros Hc. induction s1 as [|a s1 (h & t & t' & Hs1 & Ha & Hf)].
  - destruct (re_split_sep_head c s2 Hc) as [t' Ht']. exists EmptyString, [], t'.
    split_and!; [done..|]. rewrite <- (pieces_sep c s2 Hc). unfold pieces.
    by rewrite Ht', pieces_cons_empty.
  - change (String a s1 +:+ String c s2) with (String a (s1 +:+ String c s2)).
    destruct (is_token_char a) eqn:Htok.
    + rewrite !re_split_tok, Hs1, Ha by done. eauto 10.
    + rewrite !re_split_sep by done. destruct s1 as [|b s1].
      * change (re_split EmptyString) with [EmptyString] in Hs1. injection Hs1 as <- <-.
        simpl in Ha |- *. rewrite Hc. exists EmptyString, [EmptyString], t'.
        split_and!; [done..|]. by rewrite Hf, pieces_cons_empty.
      * change (String b s1 +:+ String c s2) with (String b (s1 +:+ String c s2)) in *.
        cbn iota. destruct (is_token_char b) eqn:Hb; [|eauto 10].
        exists EmptyString, (re_split (String b s1)),
          (re_split (String b (s1 +:+ String c s2))).
        split_and!; [done..|].
        rewrite Hs1, Ha, !filter_cons, Hf. by destruct (decide _).
Qed.

Lemma pieces_app_sep s1 c s2 :
  is_token_char c = false → pieces (s1 +:+ String c s2) = pieces s1 ++ pieces s2.
Proof.
  intros Hc. destruct (re_split_app_sep s1 c s2 Hc) as (h & t & t' & H1 & H2 & Hf).
  unfold pieces at 1 2. rewrite H1, H2, !filter_cons, Hf. by destruct (decide _).
Qed.

Lemma tokenize_pieces s : tokenize s = pieces (lower s).
Proof. by destruct s. Qed.
End tokenizer.


Section tokenizer_properties.
Implicit Types s : string.
#[local] Arguments re_split : simpl never.

Lemma re_split_token_chars s : Forall (λ t, all_chars is_token_char t = true) (re_split s).
Proof.
  induction s as [|c s IH]; [by repeat constructor|].
  destruct (is_token_char c) eqn:Hc.
  - rewrite re_split_tok by done. destruct (re_split_cons s) as (h & t & Hs).
    rewrite Hs in IH |- *. apply Forall_cons in IH as [Hh Ht].
    constructor; [|done]. simpl. by rewrite Hc, Hh.
  - rewrite re_split_sep by done. destruct s as [|c' s]; [by repeat constructor|].
    destruct (is_token_char c'); [by constructor | done].
Qed.

Lemma re_split_token s : all_chars is_token_char s = true → re_split s = [s].
Proof.
  induction s as [|c s IH]; [done|]. simpl. intros [Hc Hs]%andb_true_iff.
  by rewrite re_split_tok, IH.
Qed.

Lemma tokenize_token t : is_token t = true → tokenize t = [t].
Proof.
  unfold is_token. intros [Hne Hall]%andb_true_iff.
  rewrite tokenize_pieces, lower_tokens by done. unfold pieces.
  rewrite re_split_token by done. by rewrite filter_cons_True.
Qed.

(** X1: every token that [tokenize] returns is non-empty and made of the
    characters a-z and 0-9 only, and tokenizing it again gives it back. *)
Theorem tokenize_tokens_well_formed s :
  Forall (λ t, is_token t = true ∧ tokenize t = [t]) (tokenize s).
Proof.
  rewrite tokenize_pieces. unfold pieces. apply Forall_forall.
  intros t [Hne Hin]%list_elem_of_filter.
  assert (is_token t = true) as Ht.
  { unfold is_token. rewrite Hne. simpl.
    pose proof (re_split_token_chars (lower s)) as Hall.
    by eapply Forall_forall in Hall. }
  split; [done | by apply tokenize_token].
Qed.

(** X2: a character that is no ASCII letter or digit separates tokens: the
    tokens of a text with such a character in it are the tokens of what
    stands before it followed by the tokens of what stands after it. *)
Theorem tokenize_app_separator s1 c s2 :
  is_alnum c = false →
  tokenize (s1 +:+ String c s2) = tokenize s1 ++ tokenize s2.
Proof.
  intros Hc. rewrite !tokenize_pieces, lower_app. simpl. by apply pieces_app_sep.
Qed.

Lemma tokenize_app_separator_witness :
  is_alnum "-" = false ∧
  tokenize ("Hello" +:+ String "-" "World 42") = tokenize "Hello" ++ tokenize "World 42".
Proof. split; [reflexivity|]. by apply (tokenize_app_separator "Hello" "-" "World 42"). Defined.

(** The tokens of strings joined by spaces are the tokens of the strings,
    in order. *)
Lemma tokenize_join parts : tokenize (join " " parts) = concat (tokenize <$> parts).
Proof.
  induction parts as [|p parts IH]; [done|]. destruct parts as [|p' parts].
  - simpl. by rewrite app_nil_r.
  - change (join " " (p :: p' :: parts)) with (p +:+ String " " (join " " (p' :: parts))).
    rewrite tokenize_app_separator by done. by rewrite IH.
Qed.

(** X3: joining well-formed tokens with spaces and tokenizing the result
    gives the tokens back. *)
Theorem tokenize_join_tokens (ts : list string) :
  Forall (λ t, is_token t = true) ts → tokenize (join " " ts) = ts.
Proof.
  intros Hts. rewrite tokenize_join. induction Hts as [|t ts Ht _ IH]; [done|].
  csimpl. by rewrite tokenize_token, IH.
Qed.

Lemma tokenize_join_tokens_witness :
  Forall (λ t, is_token t = true) ["hello"; "world"; "42"] ∧
  tokenize (join " " ["hello"; "world"; "42"]) = ["hello"; "world"; "42"].
Proof.
  split; [by repeat constructor|].
  apply (tokenize_join_tokens ["hello"; "world"; "42"]). by repeat constructor.
Defined.


Lemma is_alnum_spec c : is_alnum c = is_digit c || is_upper c || in_range 97 122 c.
Proof. by destruct c as [[] [] [] [] [] [] [] []]. Qed.



End tokenizer_properties.


(** ** The store and the index that [build_index] leaves *)

Section dict_more.
Context {V : Type}.
Implicit Types d : list (string * V).

Lemma elem_of_dict_set k v d kv : kv ∈ dict_set k v d → kv = (k, v) ∨ kv ∈ d.
Proof.
  induction d as [|[k0 v0] d IH]; simpl.
  - rewrite list_elem_of_singleton. auto.
  - destruct (String.eqb_spec k k0); rewrite !elem_of_cons; [tauto|].
    intros [?|?]; [tauto|]. destruct IH; auto.
Qed.

Lemma dict_set_fresh k v d : k ∉ dict_keys d → dict_set k v d = d ++ [(k, v)].
Proof.
  unfold dict_keys. induction d as [|[k0 v0] d IH]; simpl; [done|].
  rewrite not_elem_of_cons. intros [Hne Hd].
  destruct (String.eqb_spec k k0); [done|]. by rewrite IH.
Qed.

Lemma elem_of_dict_NoDup k v d : NoDup (dict_keys d) → (k, v) ∈ d ↔ dict_get k d = Some v.
Proof. intros Hnd. split; [by apply dict_get_NoDup | apply dict_get_Some]. Qed.
End dict_more.

Section build_facts.
Context (id_field : string).
Implicit Types e : engine.
Implicit Types ds : list document.

Lemma filed_by_id_index_document e d :
  filed_by_id id_field e → filed_by_id id_field (index_document id_field e d).
Proof.
  intros He cid d'. unfold index_document.
  destruct (resolve_id id_field d) as [doc_id|] eqn:Hd; simpl; [|apply He].
  intros [[= -> ->]|?]%elem_of_dict_set; [done | by apply He].
Qed.

Lemma filed_by_id_build_loop e items :
  filed_by_id id_field e → filed_by_id id_field (build_loop id_field e items).1.
Proof.
  revert e. induction items as [|item items IH]; intros e He; simpl; [done|].
  destruct (index_item id_field e item) as [e'|x] eqn:Hitem; [|done].
  apply IH. apply index_item_Ok in Hitem as [->|(d & -> & ->)]; [done|].
  by apply filed_by_id_index_document.
Qed.

Lemma filed_by_id_build_index e items :
  filed_by_id id_field (build_index e items id_field).1.
Proof. apply filed_by_id_build_loop. intros cid d H. by apply elem_of_nil in H. Qed.



(** Filing the documents of a store again, in store order, gives the store
    back. *)
Lemma refile_store e (store : list (string * document)) :
  NoDup (dict_keys (docs e ++ store)) →
  (∀ cid d, (cid, d) ∈ store → resolve_id id_field d = Some cid) →
  docs (foldl (index_document id_field) e (dict_values store)) = docs e ++ store.
Proof.
  revert e. induction store as [|[cid d] store IH]; intros e Hnd Hres; simpl.
  - by rewrite app_nil_r.
  - assert (resolve_id id_field d = Some cid) as Hd by (apply Hres; left).
    assert (docs (index_document id_field e d) = docs e ++ [(cid, d)]) as Hdocs.
    { unfold index_document. rewrite Hd. simpl. apply dict_set_fresh.
      unfold dict_keys in *. rewrite fmap_app in Hnd.
      apply NoDup_app in Hnd as (_ & Hdisj & _). intros Hin.
      apply (Hdisj cid Hin). left. }
    rewrite IH.
    + rewrite Hdocs, <- app_assoc. done.
    + by rewrite Hdocs, <- app_assoc.
    + intros cid' d' Hin. apply Hres. by right.
Qed.


End build_facts.


Section build_properties.
Context (id_field : string).
Implicit Types e : engine.
Implicit Types ds : list document.

Lemma tokens_indexed_index_document e d :
  tokens_indexed e → tokens_indexed (index_document id_field e d).
Proof.
  intros He cid d' t Hin Ht. apply elem_of_postings_index_document.
  revert Hin. unfold index_document.
  destruct (resolve_id id_field d) as [doc_id|] eqn:Hd; simpl; [|left; by eapply He].
  intros [[= -> ->]|?]%elem_of_dict_set; [by right | left; by eapply He].
Qed.

Lemma tokens_indexed_build_loop e items :
  tokens_indexed e → tokens_indexed (build_loop id_field e items).1.
Proof.
  revert e. induction items as [|item items IH]; intros e He; simpl; [done|].
  destruct (index_item id_field e item) as [e'|x] eqn:Hitem; [|done].
  apply IH. apply index_item_Ok in Hitem as [->|(d & -> & ->)]; [done|].
  by apply tokens_indexed_index_document.
Qed.

Lemma elem_of_concat {A} (x : A) (ls : list (list A)) :
  x ∈ concat ls ↔ ∃ l, x ∈ l ∧ l ∈ ls.
Proof.
  induction ls as [|l ls IH]; simpl.
  - split; [by intros ?%elem_of_nil | by intros (l & _ & ?%elem_of_nil)].
  - rewrite elem_of_app, IH. split.
    + intros [?|(l' & ? & ?)]; [exists l; split; [done|left] | exists l'; split; [done|by right]].
    + intros (l' & ? & [->|?]%elem_of_cons); [by left | right; eauto].
Qed.

(** A token of a document is a token of one of its string values. *)
Lemma elem_of_doc_tokens d t :
  t ∈ doc_tokens d ↔ ∃ v, v ∈ string_values d ∧ t ∈ tokenize v.
Proof.
  unfold doc_tokens. rewrite tokenize_join, elem_of_concat. split.
  - intros (l & Ht & (v & -> & Hv)%list_elem_of_fmap). eauto.
  - intros (v & Hv & Ht). exists (tokenize v). split; [done|].
    apply list_elem_of_fmap. eauto.
Qed.

(** X5: whatever the items and however the call ends, [build_index] leaves
    a store whose keys are pairwise distinct, in which every document is
    filed under the identifier it resolves to, and an index in which every
    stored document is found under each token of each of its string
    values. *)
Theorem build_index_files_and_indexes e0 items :
  let e := (build_index e0 items id_field).1 in
  NoDup (dict_keys (docs e)) ∧
  (∀ cid d, dict_get cid (docs e) = Some d → resolve_id id_field d = Some cid) ∧
  (∀ cid d v t, dict_get cid (docs e) = Some d → v ∈ string_values d → t ∈ tokenize v →
                cid ∈ postings (index e) t).
Proof.
  intros e. split_and!.
  - apply engine_inv_build_index.
  - intros cid d Hd%dict_get_Some. by eapply filed_by_id_build_index.
  - intros cid d v t Hd%dict_get_Some Hv Ht.
    eapply (tokens_indexed_build_loop empty_engine items); [|done|].
    + intros ??? H. by apply elem_of_nil in H.
    + apply elem_of_doc_tokens. eauto.
Qed.

(** X6: building again from the documents of the store, in store order,
    gives the same store; the index it gives has no entry that the index
    before did not have. *)
Theorem rebuild_from_store e0 e1 items :
  let e := (build_index e0 items id_field).1 in
  let e' := (build_index e1 (JDict <$> dict_values (docs e)) id_field).1 in
  docs e' = docs e ∧
  ∀ t cid, cid ∈ postings (index e') t → cid ∈ postings (index e) t.
Proof.
  intros e e'.
  assert (e' = foldl (index_document id_field) empty_engine (dict_values (docs e))) as ->.
  { unfold e', build_index. by rewrite build_loop_dicts. }
  split.
  - rewrite refile_store; [done|apply engine_inv_build_index|].
    apply filed_by_id_build_index.
  - intros t cid. rewrite elem_of_postings_fold. simpl. rewrite postings_empty.
    intros [H|(d & Hd & Hres & Ht)]; [set_solver|].
    unfold dict_values in Hd. apply list_elem_of_fmap in Hd as ([cid' d'] & -> & Hin).
    simpl in *.
    assert (cid' = cid) as ->.
    { pose proof (filed_by_id_build_index id_field e0 items cid' d' Hin). congruence. }
    eapply (tokens_indexed_build_loop empty_engine items); [|done..].
    intros ??? H. by apply elem_of_nil in H.
Qed.




End build_properties.




(** ** Scores *)

Section score_properties.
Context (e : engine).
Implicit Types q_tokens : list string.

(** X10: if every query token under which [b] is indexed is a token under
    which [a] is indexed, the score of [a] is at least the score of [b]. *)
Theorem score_monotone q_tokens a b :
  (∀ t, t ∈ q_tokens → b ∈ postings (index e) t → a ∈ postings (index e) t) →
  (_score e q_tokens b ≤ _score e q_tokens a)%nat.
Proof.
  unfold _score. induction q_tokens as [|t ts IH]; intros Hsub; [done|].
  assert (length (filter (λ t, b ∈ postings (index e) t) ts) ≤
          length (filter (λ t, a ∈ postings (index e) t) ts))%nat as Hts.
  { apply IH. intros t' Ht'. apply Hsub. by right. }
  rewrite !filter_cons. destruct (decide (b ∈ postings (index e) t)) as [Hb|Hb].
  - rewrite decide_True by (apply Hsub; [left|done]). simpl. lia.
  - destruct (decide (a ∈ postings (index e) t)); simpl; lia.
Qed.

(** X11: the score of a document is 0 exactly when it is indexed under no
    token of the query, and it is the number of query tokens (repeated
    tokens counted as often as they occur) exactly when it is indexed under
    all of them. *)
Theorem score_extremes q_tokens cid :
  (_score e q_tokens cid = O ↔ ∀ t, t ∈ q_tokens → cid ∉ postings (index e) t) ∧
  (_score e q_tokens cid = length q_tokens ↔
   ∀ t, t ∈ q_tokens → cid ∈ postings (index e) t).
Proof.
  unfold _score. induction q_tokens as [|t ts [IH0 IHn]].
  - split; split; try done; by intros _ t ?%elem_of_nil.
  - pose proof (length_filter (λ t, cid ∈ postings (index e) t) ts) as Hle.
    rewrite filter_cons.
    destruct (decide (cid ∈ postings (index e) t)) as [Hin|Hout]; simpl; split; split.
    + done.
    + intros H. destruct (H t); [left | done].
    + intros [= Hts]. intros t' [->|Ht']%elem_of_cons; [done|]. by apply (proj1 IHn Hts).
    + intros H. f_equal. apply (proj2 IHn). intros t' Ht'. apply H. by right.
    + intros Hts. intros t' [->|Ht']%elem_of_cons; [done|]. by apply (proj1 IH0 Hts).
    + intros H. apply (proj2 IH0). intros t' Ht'. apply H. by right.
    + lia.
    + intros H. destruct Hout. apply H. left.
Qed.
End score_properties.

Lemma score_monotone_witness :
  let e := (build_index empty_engine sample_docs "id").1 in
  (∀ t, t ∈ ["hello"; "there"] → "1" ∈ postings (index e) t → "3" ∈ postings (index e) t) ∧
  (_score e ["hello"; "there"] "1" ≤ _score e ["hello"; "there"] "3")%nat.
Proof.
  intros e.
  assert (∀ t, t ∈ ["hello"; "there"] → "1" ∈ postings (index e) t →
               "3" ∈ postings (index e) t) as H.
  { intros t Ht _. repeat (apply elem_of_cons in Ht as [->|Ht]); [by vm_compute..|].
    by apply elem_of_nil in Ht. }
  split; [done|]. by apply (score_monotone e ["hello"; "there"] "3" "1").
Defined.


(** ** Pages, case and blank queries *)


Section case_facts.
Implicit Types s : string.
Implicit Types c : ascii.













End case_facts.






(** ** Token queries, from the documents to the results *)






(** ** Fetching a collection *)

Section fetch_collection.
Context (coll : list json) (chunk : Z).
Implicit Types st : fetch_state.

Lemma serve_page_nil skip :
  1 ≤ chunk → 0 ≤ skip → serve_page coll skip chunk = [] ↔ Z.of_nat (length coll) ≤ skip.
Proof.
  intros Hchunk Hskip. unfold serve_page. split.
  - intros H. apply (f_equal length) in H. rewrite length_take, length_drop in H.
    simpl in H. lia.
  - intros H. rewrite drop_ge by lia. apply take_nil.
Qed.

Lemma length_serve_page skip :
  0 ≤ chunk → 0 ≤ skip →
  Z.of_nat (length (serve_page coll skip chunk)) =
  Z.max 0 (Z.min chunk (Z.of_nat (length coll) - skip)).
Proof. intros. unfold serve_page. rewrite length_take, length_drop. lia. Qed.

Lemma take_serve_page skip :
  0 ≤ chunk → 0 ≤ skip →
  take (Z.to_nat skip) coll ++ serve_page coll skip chunk = take (Z.to_nat (skip + chunk)) coll.
Proof.
  intros. unfold serve_page. rewrite take_take_drop. f_equal. lia.
Qed.

Lemma paged_upstream_loop fuel st :
  1 ≤ chunk →
  all_items st = take (Z.to_nat (skip st)) coll →
  0 ≤ skip st → (skip st = 0 ∨ skip st < Z.of_nat (length coll)) →
  (1 ≤ fuel)%nat → Z.of_nat (length coll) - skip st ≤ chunk * Z.of_nat fuel →
  paging_loop fuel (paged_upstream coll) chunk st = Some (Ok coll).
Proof.
  intros Hchunk. revert st.
  induction fuel as [|fuel IH]; intros st Hall Hskip Hlt Hpos Hfuel.
  { lia. }
  simpl. unfold loop_body, after_page. simpl.
  pose proof (serve_page_nil (skip st) Hchunk Hskip) as Hnil.
  pose proof (length_serve_page (skip st) ltac:(lia) Hskip) as Hlen.
  pose proof (take_serve_page (skip st) ltac:(lia) Hskip) as Htake.
  destruct (serve_page coll (skip st) chunk) as [|item items] eqn:Hpage.
  { pose proof (proj1 Hnil eq_refl) as Hend. rewrite Hall.
    assert (skip st = 0) as Hzero by lia. rewrite Hzero in *. simpl.
    assert (coll = []) as Hcoll by (apply nil_length_inv; lia). by rewrite Hcoll. }
  assert (skip st < Z.of_nat (length coll)) as Hin.
  { destruct (Z.lt_ge_cases (skip st) (Z.of_nat (length coll))) as [|Hge]; [done|].
    by pose proof (proj2 Hnil Hge). }
  rewrite Hall, Htake.
  destruct (Z.geb_spec (Z.of_nat (length (take (Z.to_nat (skip st + chunk)) coll)))
              (Z.of_nat (length coll))) as [Hge|Hlt'].
  - do 2 f_equal. apply take_ge. rewrite length_take in Hge. lia.
  - rewrite length_take in Hlt'.
    destruct (Z.ltb_spec (Z.of_nat (length (item :: items))) chunk) as [Hshort|_]; [lia|].
    apply IH; simpl; [f_equal; lia | lia | right; lia | nia | nia].
Qed.

Lemma array_upstream_loop fuel st :
  1 ≤ chunk →
  all_items st = take (Z.to_nat (skip st)) coll →
  0 ≤ skip st ≤ Z.of_nat (length coll) →
  Z.of_nat (length coll) - skip st < chunk * Z.of_nat fuel →
  paging_loop fuel (array_upstream coll) chunk st = Some (Ok coll).
Proof.
  intros Hchunk. revert st. induction fuel as [|fuel IH]; intros st Hall Hskip Hfuel.
  { lia. }
  simpl. unfold loop_body, after_page. simpl.
  pose proof (serve_page_nil (skip st) Hchunk ltac:(lia)) as Hnil.
  pose proof (length_serve_page (skip st) ltac:(lia) ltac:(lia)) as Hlen.
  pose proof (take_serve_page (skip st) ltac:(lia) ltac:(lia)) as Htake.
  destruct (serve_page coll (skip st) chunk) as [|item items] eqn:Hpage.
  { pose proof (proj1 Hnil eq_refl) as Hend. rewrite Hall.
    do 2 f_equal. apply take_ge. lia. }
  assert (skip st < Z.of_nat (length coll)) as Hin.
  { destruct (Z.lt_ge_cases (skip st) (Z.of_nat (length coll))) as [|Hge]; [done|].
    by pose proof (proj2 Hnil Hge). }
  rewrite Hall, Htake.
  destruct (Z.ltb_spec (Z.of_nat (length (item :: items))) chunk) as [Hshort|Hfull].
  - do 2 f_equal. apply take_ge. lia.
  - apply IH; simpl; [f_equal; lia | lia | nia].
Qed.
End fetch_collection.

(** X16: against an upstream that serves a collection page by page and
    reports its size, a fetch with a limit of at least 1 returns the whole
    collection, each item once and in order, within as many pages as it
    takes to hold the collection. *)
Theorem fetch_paged_collection coll (chunk : Z) (fuel : nat) :
  1 ≤ chunk → (1 ≤ fuel)%nat → Z.of_nat (length coll) ≤ chunk * Z.of_nat fuel →
  fetch_messages_once fuel (paged_upstream coll) (Some chunk) = Some (Ok coll).
Proof.
  intros Hchunk Hpos Hfuel. unfold fetch_messages_once, chunk_of.
  apply paged_upstream_loop; simpl; [done..|lia|by left|done|lia].
Qed.

Lemma fetch_paged_collection_witness :
  1 ≤ 2 ∧ (1 ≤ 2)%nat ∧ Z.of_nat (length sample_docs) ≤ 2 * Z.of_nat 2 ∧
  fetch_messages_once 2 (paged_upstream sample_docs) (Some 2) = Some (Ok sample_docs).
Proof.
  split_and!; [lia | lia | simpl; lia |].
  apply (fetch_paged_collection sample_docs 2 2); [lia | lia | simpl; lia].
Defined.

(** X17: without a limit, the probe learns the size of the collection from
    such an upstream and the fetch returns the whole collection after a
    single page. *)
Theorem fetch_probed_collection coll :
  fetch_messages_once 1 (paged_upstream coll) None = Some (Ok coll).
Proof.
  unfold fetch_messages_once, probe, chunk_of.
  change (paged_upstream coll O 0 1) with
    (Resp 200 (Some (JDict [("items", JList (serve_page coll 0 1));
                            ("total", JInt (Z.of_nat (length coll)))]))).
  change (is_http_error 200) with false. cbv iota.
  change (json_get "total" _) with (JInt (Z.of_nat (length coll))).
  unfold truthy, py_int. destruct (Z.eqb_spec (Z.of_nat (length coll)) 0) as [Hempty|Hne].
  - rewrite Hempty. simpl negb. cbv iota.
    apply paged_upstream_loop; unfold default_chunk; simpl; [lia|done|lia|by left|lia|lia].
  - simpl negb. cbv iota. simpl mbind. cbv iota.
    apply paged_upstream_loop; simpl; [lia | done | lia | by left | lia | lia].
Qed.

(** X18: against an upstream that serves the pages as bare arrays, with no
    total, a fetch with a limit of at least 1 returns the whole collection
    as well: it stops at the first page that is short or empty. *)
Theorem fetch_array_collection coll (chunk : Z) (fuel : nat) :
  1 ≤ chunk → Z.of_nat (length coll) < chunk * Z.of_nat fuel →
  fetch_messages_once fuel (array_upstream coll) (Some chunk) = Some (Ok coll).
Proof.
  intros Hchunk Hfuel. unfold fetch_messages_once, chunk_of.
  apply array_upstream_loop; simpl; [done..|lia|lia].
Qed.

Lemma fetch_array_collection_witness :
  1 ≤ 3 ∧ Z.of_nat (length sample_docs) < 3 * Z.of_nat 2 ∧
  fetch_messages_once 2 (array_upstream sample_docs) (Some 3) = Some (Ok sample_docs).
Proof.
  split_and!; [lia | simpl; lia |].
  apply (fetch_array_collection sample_docs 3 2); [lia | simpl; lia].
Defined.


(** ** Retries *)

Section retries.
Context (fails : nat → bool) (serve : Z → Z → response).
Hypothesis no_three_in_a_row : ∀ n, fails n && fails (S n) && fails (S (S n)) = false.

Lemma page_outcome_flaky skip chunk req req' :
  page_outcome max_retries (flaky fails serve) skip chunk req =
  page_outcome max_retries (steady serve) skip chunk req'.
Proof.
  pose proof (no_three_in_a_row req) as H. unfold max_retries, flaky, steady. simpl.
  destruct (serve skip chunk) as [status [payload|]|];
    destruct (fails req), (fails (S req)), (fails (S (S req))); try discriminate H; simpl;
    try done; destruct (is_http_error status); try done; by destruct (is_auth_status status).
Qed.

Lemma after_page_same chunk st1 st2 payload req1 req2 :
  same_vars st1 st2 →
  same_step (after_page chunk st1 payload req1) (after_page chunk st2 payload req2).
Proof.
  intros (Hall & Hskip & Hdata). unfold after_page. rewrite Hall, Hskip.
  destruct (normalize payload) as [[items total]|x]; [|done].
  destruct items as [|item items]; [done|].
  destruct (reported_total total) as [[t|]|x]; simpl; [| |done].
  - destruct (_ >=? t); [done|]. by destruct (_ <? chunk).
  - by destruct (_ <? chunk).
Qed.

Lemma loop_body_same up1 up2 chunk st1 st2 :
  same_vars st1 st2 →
  page_outcome max_retries up1 (skip st1) chunk (req_no st1) =
  page_outcome max_retries up2 (skip st2) chunk (req_no st2) →
  same_step (loop_body up1 chunk st1) (loop_body up2 chunk st2).
Proof.
  intros Hsame Hout.
  destruct (page_outcome max_retries up2 (skip st2) chunk (req_no st2)) as [payload|status|]
    eqn:Hout2.
  - destruct (loop_body_data up1 chunk st1 payload Hout) as [req1 ->].
    destruct (loop_body_data up2 chunk st2 payload Hout2) as [req2 ->].
    by apply after_page_same.
  - rewrite (loop_body_auth up1 chunk st1 status Hout).
    rewrite (loop_body_auth up2 chunk st2 status Hout2). apply Hsame.
  - rewrite (loop_body_exhausted up1 chunk st1 Hout).
    rewrite (loop_body_exhausted up2 chunk st2 Hout2).
    pose proof Hsame as (Hall & Hskip & Hdata). rewrite Hdata.
    destruct (data st2) as [[]|]; first [by apply after_page_same | by simpl].
Qed.

Lemma paging_loop_flaky fuel chunk st1 st2 :
  same_vars st1 st2 →
  paging_loop fuel (flaky fails serve) chunk st1 = paging_loop fuel (steady serve) chunk st2.
Proof.
  revert st1 st2. induction fuel as [|fuel IH]; intros st1 st2 Hsame; [done|]. simpl.
  assert (same_step (loop_body (flaky fails serve) chunk st1)
                    (loop_body (steady serve) chunk st2)) as Hstep.
  { apply loop_body_same; [done|]. destruct Hsame as (_ & -> & _).
    apply page_outcome_flaky. }
  destruct (loop_body (flaky fails serve) chunk st1),
    (loop_body (steady serve) chunk st2); simpl in Hstep; try done.
  - by apply IH.
  - by rewrite Hstep.
  - by rewrite Hstep.
Qed.

(** X19: a fetch with a limit does not see transient failures as long as no
    three requests in a row fail: behind a link that answers some requests
    with a 503, never three in a row, it ends as it ends on the upstream
    itself, with the same documents or the same exception. *)
Theorem fetch_retries_hide_failures fuel (chunk : Z) :
  fetch_messages_once fuel (flaky fails serve) (Some chunk) =
  fetch_messages_once fuel (steady serve) (Some chunk).
Proof. unfold fetch_messages_once. by apply paging_loop_flaky. Qed.
End retries.

Lemma fetch_retries_hide_failures_witness :
  (∀ n, (n <? 2)%nat && (S n <? 2)%nat && (S (S n) <? 2)%nat = false) ∧
  fetch_messages_once 3 (flaky (λ n, (n <? 2)%nat) (paged_upstream sample_docs 0%nat)) (Some 2) =
  fetch_messages_once 3 (steady (paged_upstream sample_docs 0%nat)) (Some 2).
Proof.
  assert (∀ n, (n <? 2)%nat && (S n <? 2)%nat && (S (S n) <? 2)%nat = false) as H.
  { intros n. apply andb_false_r. }
  split; [done|].
  apply (fetch_retries_hide_failures (λ n, (n <? 2)%nat) (paged_upstream sample_docs 0%nat) H).
Defined.


Section expiring.
Context (coll : list json) (chunk : Z) (pages : nat).

Lemma expiring_upstream_loop fuel st :
  1 ≤ chunk → Z.of_nat pages * chunk < Z.of_nat (length coll) →
  all_items st = take (Z.to_nat (skip st)) coll →
  skip st = Z.of_nat (req_no st) * chunk →
  (req_no st ≤ pages)%nat → (pages - req_no st < fuel)%nat →
  paging_loop fuel (expiring_upstream pages coll) chunk st =
  Some (Ok (take (Z.to_nat (Z.of_nat pages * chunk)) coll)).
Proof.
  intros Hchunk Hlen. revert st.
  induction fuel as [|fuel IH]; intros st Hall Hskip Hreq Hfuel; [lia|].
  simpl. unfold loop_body, after_page, expiring_upstream. simpl.
  destruct (Nat.ltb_spec (req_no st) pages) as [Hlt|Hge]; simpl.
  - assert (0 ≤ skip st) as Hpos by lia.
    assert (skip st + chunk ≤ Z.of_nat pages * chunk) as Hnext by nia.
    pose proof (length_serve_page coll chunk (skip st) ltac:(lia) Hpos) as Hitems.
    pose proof (take_serve_page coll chunk (skip st) ltac:(lia) Hpos) as Htake.
    destruct (serve_page coll (skip st) chunk) as [|item items] eqn:Hpage.
    { simpl in Hitems. lia. }
    rewrite Hall, Htake.
    destruct (Z.geb_spec (Z.of_nat (length (take (Z.to_nat (skip st + chunk)) coll)))
                (Z.of_nat (length coll))) as [Hge|_].
    { rewrite length_take in Hge. lia. }
    destruct (Z.ltb_spec (Z.of_nat (length (item :: items))) chunk) as [Hshort|_]; [lia|].
    apply IH; simpl; [f_equal; lia | lia | lia | lia].
  - rewrite Hall. do 3 f_equal. assert (req_no st = pages) by lia. lia.
Qed.
End expiring.

(** X20: when the upstream serves [pages] full pages of a larger collection
    and answers 401 to the request after them, the fetch returns the items
    of those pages, the first [pages * limit] items of the collection,
    and raises nothing. *)
Theorem fetch_auth_failure_returns_prefix coll (chunk : Z) (pages fuel : nat) :
  1 ≤ chunk → Z.of_nat pages * chunk < Z.of_nat (length coll) → (pages < fuel)%nat →
  fetch_messages_once fuel (expiring_upstream pages coll) (Some chunk) =
  Some (Ok (take (Z.to_nat (Z.of_nat pages * chunk)) coll)).
Proof.
  intros Hchunk Hlen Hfuel. unfold fetch_messages_once, chunk_of.
  apply expiring_upstream_loop; simpl; [done..|lia|lia].
Qed.

Lemma fetch_auth_failure_returns_prefix_witness :
  1 ≤ 2 ∧ Z.of_nat 1 * 2 < Z.of_nat (length sample_docs) ∧ (1 < 2)%nat ∧
  fetch_messages_once 2 (expiring_upstream 1 sample_docs) (Some 2) =
  Some (Ok (take (Z.to_nat (Z.of_nat 1 * 2)) sample_docs)).
Proof.
  split_and!; [lia | simpl; lia | lia |].
  apply (fetch_auth_failure_returns_prefix sample_docs 2 1 2); [lia | simpl; lia | lia].
Defined.


(** ** The service *)



Section refresh.
Context (fuel : nat).
Implicit Types s : service.

Lemma refresh_cycle_engine up s s' :
  refresh_cycle fuel up s = Some s' → service_engine s' = service_engine s.
Proof.
  unfold refresh_cycle, load.
  destruct (fetch_messages_once fuel up None) as [[fetched|x]|]; [| |done];
    by intros [= <-].
Qed.

(** X22: the periodic refresh never touches the engine: after any number
    of refresh turns the index and the store are those that startup built,
    so every search is answered as before the refresh.  What a turn changes
    is the loader's own list, and only when its fetch does not raise: after
    the turns, the list is that of the last fetch that returned. *)
Theorem refresh_keeps_engine cycles s s' :
  run fuel cycles s = Some s' →
  service_engine s' = service_engine s ∧
  (∀ query page page_size,
     search (service_engine s') query page page_size =
     search (service_engine s) query page page_size) ∧
  (Forall (λ up, ∃ x, fetch_messages_once fuel up None = Some (Raise x)) cycles →
   s' = s) ∧
  (∀ before up fetched,
     cycles = before ++ [up] → fetch_messages_once fuel up None = Some (Ok fetched) →
     loader_docs s' = fetched).
Proof.
  intros Hrun.
  assert (service_engine s' = service_engine s) as Heng.
  { revert s Hrun. induction cycles as [|up cycles IH]; intros s; simpl; [by intros [= <-]|].
    destruct (refresh_cycle fuel up s) as [s1|] eqn:Hcycle; [|done].
    intros Hrun. rewrite (IH _ Hrun). by eapply refresh_cycle_engine. }
  split_and!; [done | intros; by rewrite Heng | |].
  - intros Hall. revert s Hrun Heng.
    induction Hall as [|up cycles [x Hup] _ IH]; intros s; simpl; [by intros [= <-]|].
    unfold refresh_cycle, load. rewrite Hup. apply IH.
  - intros before up fetched -> Hup. clear Heng. revert s Hrun.
    induction before as [|up0 before IH]; intros s; simpl.
    + unfold refresh_cycle, load. rewrite Hup. by intros [= <-].
    + destruct (refresh_cycle fuel up0 s) as [s1|]; [apply IH | done].
Qed.
End refresh.

Lemma refresh_keeps_engine_witness :
  let s := {| loader_docs := []; service_engine := previous_engine |} in
  let s' := {| loader_docs := sample_docs; service_engine := previous_engine |} in
  run 1 [always_500; paged_upstream sample_docs] s = Some s' ∧
  service_engine s' = service_engine s.
Proof.
  intros s s'. assert (run 1 [always_500; paged_upstream sample_docs] s = Some s') as Hrun
    by reflexivity.
  split; [done|]. apply (refresh_keeps_engine 1 _ s s' Hrun).
Defined.

